(** * A shallow embedding of the [corn] crate ([src/lib.rs])

    The crate is Bevy glue: a startup system [setup_mesh_and_animation]
    that requests two glTF scenes and attaches an [AnimationToPlay]
    marker to the first one, an entity observer [play_animation_when_ready]
    that starts the animation once the scene is instantiated, and a
    per-frame system [draw_mesh_intersections] drawing gizmos at picking
    hits.

    The ECS world is modelled as one record of component stores keyed by
    entity; [Commands] are a queue of deferred commands applied after the
    system (or observer) returns, as Bevy does.  A command aimed at an
    entity that does not exist makes the application fail ([None]): this is
    Bevy's default error handler, which panics. *)

From Stdlib Require Import QArith.
From stdpp Require Import base gmap list strings.

(** ** Engine types used by the crate *)

Definition Entity := nat.
Definition AnimationNodeIndex := nat.

(** [GltfAssetLabel::Scene(n)] and [GltfAssetLabel::Animation(n)]. *)
Inductive GltfAssetLabel :=
| Scene (n : nat)
| Animation (n : nat).

(** [label.from_asset(file)]: an asset path with a label. *)
Record AssetPath := mkAssetPath { ap_label : GltfAssetLabel; ap_file : string }.

Definition from_asset (l : GltfAssetLabel) (file : string) : AssetPath :=
  mkAssetPath l file.

(** [AssetServer::load] hands back a handle identified by the path. *)
Definition Handle := AssetPath.

(** [Handle<AnimationGraph>] returned by [Assets::add]: an asset id. *)
Definition GraphHandle := nat.

(** Nodes of an [AnimationGraph]: the root blend node and clip nodes. *)
Inductive AnimationGraphNode :=
| RootNode
| ClipNode (clip : Handle).

Record AnimationGraph := mkAnimationGraph { graph_nodes : list AnimationGraphNode }.

(** [AnimationGraph::from_clip]: a new graph holds its root at index 0;
    [add_clip] appends the clip node under it and returns its index. *)
Definition from_clip (clip : Handle) : AnimationGraph * AnimationNodeIndex :=
  (mkAnimationGraph [RootNode; ClipNode clip], 1).

(** [RepeatAnimation]. *)
Inductive RepeatAnimation :=
| Never
| Count (n : nat)
| Forever.

(** [ActiveAnimation]; the [f32] fields are held as rationals, the code
    of the crate never reads or writes them. *)
Record ActiveAnimation := mkActiveAnimation {
  aa_weight : Q;
  aa_repeat : RepeatAnimation;
  aa_speed : Q;
  aa_elapsed : Q;
  aa_seek_time : Q;
  aa_completions : nat;
  aa_paused : bool
}.

(** [impl Default for ActiveAnimation]. *)
Definition active_animation_default : ActiveAnimation :=
  mkActiveAnimation 1%Q Never 1%Q 0%Q 0%Q 0 false.

(** [ActiveAnimation::repeat]: [self.repeat = RepeatAnimation::Forever]. *)
Definition repeat (a : ActiveAnimation) : ActiveAnimation :=
  mkActiveAnimation (aa_weight a) Forever (aa_speed a) (aa_elapsed a)
    (aa_seek_time a) (aa_completions a) (aa_paused a).

Record AnimationPlayer := mkAnimationPlayer {
  active_animations : gmap AnimationNodeIndex ActiveAnimation
}.

(** [AnimationPlayer::play(index).repeat()]: [play] is
    [self.active_animations.entry(animation).or_default()], and [repeat]
    updates the entry it returns. *)
Definition play_repeat (idx : AnimationNodeIndex) (p : AnimationPlayer)
    : AnimationPlayer :=
  let cur := default active_animation_default (active_animations p !! idx) in
  mkAnimationPlayer (<[idx := repeat cur]> (active_animations p)).

(** [Transform]: a translation and a rotation, the rotation kept as the
    Euler angles it is built from ([Quat::from_euler]). *)
Inductive Rotation :=
| RotIdentity
| RotEulerXYZ (a b c : Q).

Record Transform := mkTransform {
  translation : Q * Q * Q;
  rotation : Rotation
}.

Definition transform_default : Transform := mkTransform (0%Q, 0%Q, 0%Q) RotIdentity.

Definition from_xyz (x y z : Q) : Transform := mkTransform (x, y, z) RotIdentity.

Definition with_rotation (t : Transform) (r : Rotation) : Transform :=
  mkTransform (translation t) r.

(** ** The crate's own component *)

Record AnimationToPlay := mkAnimationToPlay {
  graph_handle : GraphHandle;
  index : AnimationNodeIndex
}.

(** Observers the crate registers (only one function). *)
Inductive ObserverSystem :=
| PlayAnimationWhenReady.

(** Components a bundle may carry. *)
Inductive Component :=
| CAnimationToPlay (a : AnimationToPlay)
| CSceneRoot (h : Handle)
| CTransform (t : Transform)
| CAnimationGraphHandle (h : GraphHandle).

(** ** The world *)

Record World := mkWorld {
  next_entity : nat;
  children : gmap Entity (list Entity);
  animations_to_play : gmap Entity AnimationToPlay;
  players : gmap Entity AnimationPlayer;
  graph_handles : gmap Entity GraphHandle;
  scene_roots : gmap Entity Handle;
  transforms : gmap Entity Transform;
  observers : list (Entity * ObserverSystem);
  graphs : gmap GraphHandle AnimationGraph;
  next_graph : GraphHandle;
  load_requests : list AssetPath
}.

(** No entity is ever despawned by this program: an entity exists when its
    id has been allocated. *)
Definition alive (w : World) (e : Entity) : Prop := e < next_entity w.

Definition set_players (w : World) (m : gmap Entity AnimationPlayer) : World :=
  mkWorld (next_entity w) (children w) (animations_to_play w) m
    (graph_handles w) (scene_roots w) (transforms w) (observers w)
    (graphs w) (next_graph w) (load_requests w).

Definition set_animations_to_play (w : World) (m : gmap Entity AnimationToPlay)
    : World :=
  mkWorld (next_entity w) (children w) m (players w)
    (graph_handles w) (scene_roots w) (transforms w) (observers w)
    (graphs w) (next_graph w) (load_requests w).

Definition set_graph_handles (w : World) (m : gmap Entity GraphHandle) : World :=
  mkWorld (next_entity w) (children w) (animations_to_play w) (players w)
    m (scene_roots w) (transforms w) (observers w)
    (graphs w) (next_graph w) (load_requests w).

Definition set_scene_roots (w : World) (m : gmap Entity Handle) : World :=
  mkWorld (next_entity w) (children w) (animations_to_play w) (players w)
    (graph_handles w) m (transforms w) (observers w)
    (graphs w) (next_graph w) (load_requests w).

Definition set_transforms (w : World) (m : gmap Entity Transform) : World :=
  mkWorld (next_entity w) (children w) (animations_to_play w) (players w)
    (graph_handles w) (scene_roots w) m (observers w)
    (graphs w) (next_graph w) (load_requests w).

(** [Entities::reserve_entity] / [World::spawn]: a fresh id. *)
Definition reserve_entity (w : World) : World * Entity :=
  (mkWorld (S (next_entity w)) (children w) (animations_to_play w) (players w)
    (graph_handles w) (scene_roots w) (transforms w) (observers w)
    (graphs w) (next_graph w) (load_requests w), next_entity w).

Definition add_observer (w : World) (o : Entity * ObserverSystem) : World :=
  mkWorld (next_entity w) (children w) (animations_to_play w) (players w)
    (graph_handles w) (scene_roots w) (transforms w) (observers w ++ [o])
    (graphs w) (next_graph w) (load_requests w).

(** [AssetServer::load]: the request is issued (logged) and the handle of
    the path is returned. *)
Definition load (p : AssetPath) (w : World) : World * Handle :=
  (mkWorld (next_entity w) (children w) (animations_to_play w) (players w)
    (graph_handles w) (scene_roots w) (transforms w) (observers w)
    (graphs w) (next_graph w) (load_requests w ++ [p]), p).

(** [Assets::<AnimationGraph>::add]: store the graph under a fresh id. *)
Definition add_graph (g : AnimationGraph) (w : World) : World * GraphHandle :=
  (mkWorld (next_entity w) (children w) (animations_to_play w) (players w)
    (graph_handles w) (scene_roots w) (transforms w) (observers w)
    (<[next_graph w := g]> (graphs w)) (S (next_graph w)) (load_requests w),
   next_graph w).

(** ** Commands *)

Inductive Command :=
| CmdInsert (e : Entity) (bundle : list Component)
| CmdObserve (e : Entity) (s : ObserverSystem).

(** Insert one component on an entity.  [SceneRoot] requires [Transform]:
    a default one is added when the entity has none (the other required
    components, such as [Visibility], are not modelled). *)
Definition insert_component (e : Entity) (w : World) (c : Component) : World :=
  match c with
  | CAnimationToPlay a => set_animations_to_play w (<[e := a]> (animations_to_play w))
  | CSceneRoot h =>
      let w1 := set_scene_roots w (<[e := h]> (scene_roots w)) in
      match transforms w1 !! e with
      | Some _ => w1
      | None => set_transforms w1 (<[e := transform_default]> (transforms w1))
      end
  | CTransform t => set_transforms w (<[e := t]> (transforms w))
  | CAnimationGraphHandle h => set_graph_handles w (<[e := h]> (graph_handles w))
  end.

(** Applying a command: [None] when the target entity does not exist (the
    default error handler panics).  [EntityCommands::observe] spawns an
    observer entity watching the target. *)
Definition apply_command (w : World) (c : Command) : option World :=
  match c with
  | CmdInsert e bundle =>
      if decide (e < next_entity w) then Some (foldl (insert_component e) w bundle)
      else None
  | CmdObserve e s =>
      if decide (e < next_entity w) then
        Some (add_observer (fst (reserve_entity w)) (e, s))
      else None
  end.

Fixpoint apply_commands (w : World) (cs : list Command) : option World :=
  match cs with
  | [] => Some w
  | c :: cs' =>
      match apply_command w c with
      | Some w' => apply_commands w' cs'
      | None => None
      end
  end.

(** ** Hierarchy traversal *)

(** [DescendantIter::next]: pop the front of the queue, push its children
    at the back, yield it.  Bevy's hierarchy is a forest, where each entity
    is the child of at most one parent, so the iteration pops at most as
    many entities as there are child links: that count is the fuel. *)
Fixpoint descendants_bfs (fuel : nat) (ch : gmap Entity (list Entity))
    (queue : list Entity) : list Entity :=
  match fuel with
  | 0 => []
  | S fuel' =>
      match queue with
      | [] => []
      | e :: q => e :: descendants_bfs fuel' ch (q ++ default [] (ch !! e))
      end
  end.

Definition child_links (w : World) : nat :=
  length (concat (map snd (map_to_list (children w)))).

(** [children.iter_descendants(root)]: the queue starts with the root's
    children. *)
Definition iter_descendants (w : World) (root : Entity) : list Entity :=
  descendants_bfs (child_links w) (children w) (default [] (children w !! root)).

(** ** [play_animation_when_ready] *)

(** The [for child in ...] loop: [players.get_mut(child)] mutates the
    player in place, [commands.entity(child).insert(...)] queues a command. *)
Fixpoint play_loop (atp : AnimationToPlay) (w : World) (cmds : list Command)
    (ds : list Entity) : World * list Command :=
  match ds with
  | [] => (w, cmds)
  | child :: ds' =>
      match players w !! child with
      | Some player =>
          play_loop atp
            (set_players w (<[child := play_repeat (index atp) player]> (players w)))
            (cmds ++ [CmdInsert child [CAnimationGraphHandle (graph_handle atp)]])
            ds'
      | None => play_loop atp w cmds ds'
      end
  end.

(** The observer body, before its commands are applied. *)
Definition play_animation_when_ready_body (target : Entity) (w : World)
    : World * list Command :=
  match animations_to_play w !! target with
  | Some atp => play_loop atp w [] (iter_descendants w target)
  | None => (w, [])
  end.

(** One invocation of the observer: body, then its command queue. *)
Definition play_animation_when_ready (target : Entity) (w : World) : option World :=
  let '(w', cmds) := play_animation_when_ready_body target w in
  apply_commands w' cmds.

Definition run_observer (s : ObserverSystem) (target : Entity) (w : World)
    : option World :=
  match s with
  | PlayAnimationWhenReady => play_animation_when_ready target w
  end.

(** The observers a [SceneInstanceReady] event aimed at [target] reaches:
    those watching [target] (the crate registers no global observer). *)
Definition observers_for (w : World) (target : Entity) : list ObserverSystem :=
  map snd (filter (fun o => o.1 = target) (observers w)).

Fixpoint run_observers (ss : list ObserverSystem) (target : Entity) (w : World)
    : option World :=
  match ss with
  | [] => Some w
  | s :: ss' =>
      match run_observer s target w with
      | Some w' => run_observers ss' target w'
      | None => None
      end
  end.

(** [world.trigger_targets(SceneInstanceReady { .. }, target)]. *)
Definition trigger_scene_instance_ready (target : Entity) (w : World)
    : option World :=
  run_observers (observers_for w target) target w.

(** ** [setup_mesh_and_animation] *)

Definition FACTORY : string := "factory.glb".
Definition CORN : string := "corn.glb".

Definition corn_transform : Transform :=
  with_rotation (from_xyz 5 10 5) (RotEulerXYZ (357 # 100) (14 # 100) (295 # 100)).

(** The body of the system: what it does before its command queue is
    applied; [commands.spawn] reserves the id at once. *)
Definition setup_mesh_and_animation_body (w : World) : World * list Command :=
  let '(w, clip) := load (from_asset (Animation 0) FACTORY) w in
  let '(graph, idx) := from_clip clip in
  let '(w, gh) := add_graph graph w in
  let animation_to_play := mkAnimationToPlay gh idx in
  let '(w, scene) := load (from_asset (Scene 0) FACTORY) w in
  let '(w, e0) := reserve_entity w in
  let '(w, corn_scene) := load (from_asset (Scene 0) CORN) w in
  let '(w, e1) := reserve_entity w in
  (w, [CmdInsert e0 [CAnimationToPlay animation_to_play; CSceneRoot scene];
       CmdObserve e0 PlayAnimationWhenReady;
       CmdInsert e1 [CSceneRoot corn_scene; CTransform corn_transform]]).

Definition setup_mesh_and_animation (w : World) : option World :=
  let '(w', cmds) := setup_mesh_and_animation_body w in
  apply_commands w' cmds.

(** ** [draw_mesh_intersections] *)

Inductive Color :=
| RED_500
| PINK_100.

Section Gizmos.

(** [Vec3] and its [f32] arithmetic are kept abstract. *)
Variable Vec3 : Type.
Variable vadd : Vec3 -> Vec3 -> Vec3.
Variable vscale : Vec3 -> Q -> Vec3.
Variable normalize : Vec3 -> Vec3.

Record HitData := mkHitData {
  hit_camera : Entity;
  hit_depth : Q;
  hit_position : option Vec3;
  hit_normal : option Vec3
}.

(** [PointerInteraction]: the hits sorted nearest first. *)
Record PointerInteraction := mkPointerInteraction {
  sorted_entities : list (Entity * HitData)
}.

Definition get_nearest_hit (i : PointerInteraction) : option (Entity * HitData) :=
  head (sorted_entities i).

Inductive Gizmo :=
| GSphere (center : Vec3) (radius : Q) (c : Color)
| GArrow (start stop : Vec3) (c : Color).

(** [Option::zip]. *)
Definition option_zip {A B} (a : option A) (b : option B) : option (A * B) :=
  match a, b with
  | Some x, Some y => Some (x, y)
  | _, _ => None
  end.

(** [Iterator::filter_map]. *)
Fixpoint filter_map {A B} (f : A -> option B) (l : list A) : list B :=
  match l with
  | [] => []
  | x :: l' =>
      match f x with
      | Some y => y :: filter_map f l'
      | None => filter_map f l'
      end
  end.

Definition draw_hit (pn : Vec3 * Vec3) : list Gizmo :=
  let '(point, normal) := pn in
  [GSphere point (5 # 100) RED_500;
   GArrow point (vadd point (vscale (normalize normal) (1 # 2))) PINK_100].

(** The system: the gizmos it draws this frame, in order. *)
Definition draw_mesh_intersections (q_pointers : list PointerInteraction)
    : list Gizmo :=
  flat_map draw_hit
    (filter_map (fun '(_, hit) => option_zip (hit_position hit) (hit_normal hit))
       (filter_map get_nearest_hit q_pointers)).

End Gizmos.

Arguments mkHitData {Vec3}.
Arguments hit_position {Vec3}.
Arguments hit_normal {Vec3}.
Arguments mkPointerInteraction {Vec3}.
Arguments GSphere {Vec3}.
Arguments GArrow {Vec3}.
Arguments get_nearest_hit {Vec3}.
Arguments draw_mesh_intersections {Vec3} vadd vscale normalize q_pointers.

(** A pointer whose nearest hit carries both a position and a normal. *)
Definition has_full_hit {Vec3} (i : PointerInteraction Vec3) : bool :=
  match get_nearest_hit i with
  | Some (_, hit) =>
      match hit_position hit, hit_normal hit with
      | Some _, Some _ => true
      | _, _ => false
      end
  | None => false
  end.

(** The pointer with every hit but the nearest dropped. *)
Definition keep_nearest {Vec3} (i : PointerInteraction Vec3) : PointerInteraction Vec3 :=
  mkPointerInteraction (take 1 (sorted_entities _ i)).

(** ** Worlds *)

Definition empty_world : World :=
  mkWorld 0 ∅ ∅ ∅ ∅ ∅ ∅ [] ∅ 0 [].

(** Well-formedness: every component, child link and observer refers to an
    allocated entity. *)
Definition wf (w : World) : Prop :=
  map_Forall (fun e l => e < next_entity w /\ Forall (fun c => c < next_entity w) l)
    (children w) /\
  map_Forall (fun e _ => e < next_entity w) (animations_to_play w) /\
  map_Forall (fun e _ => e < next_entity w) (players w) /\
  map_Forall (fun e _ => e < next_entity w) (graph_handles w) /\
  map_Forall (fun e _ => e < next_entity w) (scene_roots w) /\
  map_Forall (fun e _ => e < next_entity w) (transforms w) /\
  Forall (fun o => o.1 < next_entity w) (observers w).

#[global] Instance wf_dec (w : World) : Decision (wf w).
Proof. unfold wf. apply _. Defined.

(** ** The hierarchy as Bevy keeps it *)

Definition kids (ch : gmap Entity (list Entity)) (e : Entity) : list Entity :=
  default [] (ch !! e).

(** [d] lies below [r] through one or more child links. *)
Inductive descendant (ch : gmap Entity (list Entity)) (r : Entity) : Entity -> Prop :=
| desc_child c : c ∈ kids ch r -> descendant ch r c
| desc_step d c : descendant ch r d -> c ∈ kids ch d -> descendant ch r c.

(** Bevy's hierarchy invariants below [r]: an entity has at most one
    parent, a [Children] list holds no entity twice, and [r] is not below
    itself. *)
Definition hierarchy_ok (ch : gmap Entity (list Entity)) (r : Entity) : Prop :=
  (forall p p' c, c ∈ kids ch p -> c ∈ kids ch p' -> p = p') /\
  (forall p, NoDup (kids ch p)) /\
  ~ descendant ch r r.

(** ** Sample worlds *)

(** The marker [setup_mesh_and_animation] creates in an empty world. *)
Definition factory_marker : AnimationToPlay := mkAnimationToPlay 0 1.

(** The world once both scenes are spawned: entity 0 is the factory root
    (marker, observer), 1 the corn root, 2 the observer entity, and 3, 4, 5
    the factory hierarchy, with players on 3 and 5. *)
Definition sample_world : World :=
  mkWorld 6
    (<[0 := [3; 4]]> (<[3 := [5]]> ∅))
    {[0 := factory_marker]}
    (<[3 := mkAnimationPlayer ∅]>
      {[5 := mkAnimationPlayer {[1 := mkActiveAnimation 1%Q (Count 2) 1%Q 0%Q 0%Q 0 false]}]})
    ∅
    (<[0 := from_asset (Scene 0) FACTORY]> {[1 := from_asset (Scene 0) CORN]})
    (<[0 := transform_default]> {[1 := corn_transform]})
    [(0, PlayAnimationWhenReady)]
    {[0 := fst (from_clip (from_asset (Animation 0) FACTORY))]}
    1
    [from_asset (Animation 0) FACTORY; from_asset (Scene 0) FACTORY;
     from_asset (Scene 0) CORN].

(** The same hierarchy with no animation player in it. *)
Definition sample_world_no_player : World :=
  set_players sample_world ∅.

(** [sample_world] once the corn scene is spawned too: entity 6 below the
    corn root 1, with an animation player of its own. *)
Definition corn_spawned_world : World :=
  mkWorld 7
    (<[1 := [6]]> (children sample_world))
    (animations_to_play sample_world)
    (<[6 := mkAnimationPlayer ∅]> (players sample_world))
    (graph_handles sample_world)
    (scene_roots sample_world)
    (transforms sample_world)
    (observers sample_world)
    (graphs sample_world)
    (next_graph sample_world)
    (load_requests sample_world).

Definition factory_graph : AnimationGraph :=
  fst (from_clip (from_asset (Animation 0) FACTORY)).

(** The [Transform] a [SceneRoot] insertion leaves on an entity: the one it
    has, or the default one. *)
Definition require_transform (e : Entity) (m : gmap Entity Transform)
    : gmap Entity Transform :=
  match m !! e with
  | Some _ => m
  | None => <[e := transform_default]> m
  end.

(** A scene-file request: the asset path names a [Scene] label. *)
Definition is_scene_request (p : AssetPath) : bool :=
  match ap_label p with
  | Scene _ => true
  | Animation _ => false
  end.

(** ** Sample pointers *)

(** A pointer with a full hit and two pointers without one, over points
    with rational coordinates (normalization left as the identity). *)
Definition pointer_no_hit : PointerInteraction (Q * Q * Q) :=
  mkPointerInteraction [].

Definition pointer_no_normal : PointerInteraction (Q * Q * Q) :=
  mkPointerInteraction [(7, mkHitData 0 1%Q (Some (1%Q, 2%Q, 3%Q)) None)].

Definition pointer_full : PointerInteraction (Q * Q * Q) :=
  mkPointerInteraction
    [(8, mkHitData 0 2%Q (Some (1%Q, 0%Q, 0%Q)) (Some (0%Q, 1%Q, 0%Q)));
     (9, mkHitData 0 5%Q (Some (4%Q, 4%Q, 4%Q)) (Some (0%Q, 0%Q, 1%Q)))].

Definition sample_pointers : list (PointerInteraction (Q * Q * Q)) :=
  [pointer_no_hit; pointer_no_normal; pointer_full].

Definition qadd3 (a b : Q * Q * Q) : Q * Q * Q :=
  let '(x, y, z) := a in let '(x', y', z') := b in (x + x', y + y', z + z')%Q.

Definition qscale3 (a : Q * Q * Q) (k : Q) : Q * Q * Q :=
  let '(x, y, z) := a in (x * k, y * k, z * k)%Q.

(** ** What the observer's loop does, written by key *)

(** The players map after the loop. *)
Fixpoint players_after (idx : AnimationNodeIndex) (m : gmap Entity AnimationPlayer)
    (ds : list Entity) : gmap Entity AnimationPlayer :=
  match ds with
  | [] => m
  | d :: ds' =>
      match m !! d with
      | Some p => players_after idx (<[d := play_repeat idx p]> m) ds'
      | None => players_after idx m ds'
      end
  end.

(** The entities the loop queues an insertion for. *)
Fixpoint insert_targets (m : gmap Entity AnimationPlayer) (ds : list Entity)
    : list Entity :=
  match ds with
  | [] => []
  | d :: ds' =>
      match m !! d with
      | Some _ => d :: insert_targets m ds'
      | None => insert_targets m ds'
      end
  end.

Definition insert_handle_cmd (h : GraphHandle) (d : Entity) : Command :=
  CmdInsert d [CAnimationGraphHandle h].

(** The graph-handle map after the queued insertions. *)
Fixpoint handles_after (h : GraphHandle) (m : gmap Entity GraphHandle)
    (ds : list Entity) : gmap Entity GraphHandle :=
  match ds with
  | [] => m
  | d :: ds' => handles_after h (<[d := h]> m) ds'
  end.

(** ** Lemmas about the observer *)

Lemma repeat_idem (a : ActiveAnimation) : repeat (repeat a) = repeat a.
Proof. by destruct a. Qed.

Lemma play_repeat_idem (idx : AnimationNodeIndex) (p : AnimationPlayer) :
  play_repeat idx (play_repeat idx p) = play_repeat idx p.
Proof.
  unfold play_repeat; simpl. rewrite lookup_insert_eq; simpl.
  by rewrite repeat_idem, insert_insert_eq.
Qed.

Lemma play_repeat_started (idx : AnimationNodeIndex) (p : AnimationPlayer) :
  exists a, active_animations (play_repeat idx p) !! idx = Some a /\
            aa_repeat a = Forever.
Proof.
  unfold play_repeat; simpl. rewrite lookup_insert_eq.
  eexists; split; [reflexivity | by destruct (active_animations p !! idx)].
Qed.

Lemma set_players_players (w : World) m : players (set_players w m) = m.
Proof. reflexivity. Qed.

Lemma set_players_twice (w : World) m m' :
  set_players (set_players w m) m' = set_players w m'.
Proof. reflexivity. Qed.

Lemma players_after_lookup (idx : AnimationNodeIndex) (ds : list Entity) :
  forall (m : gmap Entity AnimationPlayer) (k : Entity),
  players_after idx m ds !! k =
    match m !! k with
    | Some p => Some (if decide (k ∈ ds) then play_repeat idx p else p)
    | None => None
    end.
Proof.
  induction ds as [|d ds IH]; intros m k; simpl.
  - by destruct (m !! k).
  - destruct (m !! d) as [p|] eqn:Hd; rewrite IH.
    + destruct (decide (k = d)) as [->|Hne].
      * rewrite lookup_insert_eq, Hd.
        rewrite (decide_True (P := d ∈ d :: ds)) by set_solver.
        destruct (decide (d ∈ ds)); [by rewrite play_repeat_idem|done].
      * rewrite lookup_insert_ne by done.
        destruct (m !! k); [|done].
        destruct (decide (k ∈ ds)), (decide (k ∈ d :: ds)); set_solver.
    + destruct (m !! k) as [p|] eqn:Hk; [|done].
      destruct (decide (k ∈ ds)), (decide (k ∈ d :: ds)); try done.
      * set_solver.
      * assert (k = d) as -> by set_solver. congruence.
Qed.

Lemma insert_targets_ext (m m' : gmap Entity AnimationPlayer) (ds : list Entity) :
  (forall k, is_Some (m !! k) <-> is_Some (m' !! k)) ->
  insert_targets m ds = insert_targets m' ds.
Proof.
  intros Hm. induction ds as [|d ds IH]; simpl; [done|].
  specialize (Hm d).
  destruct (m !! d), (m' !! d); rewrite ?IH; try done.
  - destruct Hm as [H _]. by destruct H.
  - destruct Hm as [_ H]. by destruct H.
Qed.

Lemma insert_targets_spec (m : gmap Entity AnimationPlayer) (ds : list Entity) d :
  d ∈ insert_targets m ds <-> d ∈ ds /\ is_Some (m !! d).
Proof.
  induction ds as [|d' ds IH]; simpl.
  - set_solver.
  - destruct (m !! d') eqn:Hd'; rewrite ?elem_of_cons, IH.
    + split; [intros [->|[? ?]]; split; eauto; by rewrite Hd'|].
      intros [[->|?] ?]; auto.
    + split; [intros [? ?]; split; auto; right; done|].
      intros [[->|?] Hs]; [|auto]. rewrite Hd' in Hs. by destruct Hs.
Qed.

Lemma play_loop_eq (atp : AnimationToPlay) (ds : list Entity) :
  forall (w : World) (cmds : list Command),
  play_loop atp w cmds ds =
    (set_players w (players_after (index atp) (players w) ds),
     cmds ++ map (insert_handle_cmd (graph_handle atp))
                 (insert_targets (players w) ds)).
Proof.
  induction ds as [|d ds IH]; intros w cmds; simpl.
  - rewrite app_nil_r. by destruct w.
  - destruct (players w !! d) as [p|] eqn:Hd.
    + rewrite IH, set_players_players, set_players_twice, <- app_assoc.
      simpl. do 4 f_equal. apply insert_targets_ext. intros k.
      destruct (decide (k = d)) as [->|Hne].
      * rewrite lookup_insert_eq, Hd. done.
      * by rewrite lookup_insert_ne.
    + by rewrite IH.
Qed.

Lemma handles_after_lookup (h : GraphHandle) (l : list Entity) :
  forall (m : gmap Entity GraphHandle) (k : Entity),
  handles_after h m l !! k = if decide (k ∈ l) then Some h else m !! k.
Proof.
  induction l as [|d l IH]; intros m k; cbn [handles_after].
  - by rewrite decide_False by set_solver.
  - rewrite IH. destruct (decide (k = d)) as [->|Hne].
    + rewrite lookup_insert_eq.
      rewrite (decide_True (P := d ∈ d :: l)) by set_solver.
      by destruct (decide (d ∈ l)).
    + rewrite lookup_insert_ne by done.
      destruct (decide (k ∈ l)), (decide (k ∈ d :: l)); set_solver.
Qed.

Lemma apply_insert_handles (h : GraphHandle) (l : list Entity) :
  forall w : World,
  (forall d, d ∈ l -> d < next_entity w) ->
  apply_commands w (map (insert_handle_cmd h) l) =
    Some (set_graph_handles w (handles_after h (graph_handles w) l)).
Proof.
  induction l as [|d l IH]; intros w Hl; simpl.
  - by destruct w.
  - rewrite decide_True by (apply Hl; set_solver).
    rewrite IH; [reflexivity|].
    intros d' Hd'. apply Hl. set_solver.
Qed.

(** The observer's effect when the target carries the marker and every
    player it reaches exists. *)
Lemma play_animation_when_ready_marker (w : World) (target : Entity)
    (atp : AnimationToPlay) :
  animations_to_play w !! target = Some atp ->
  (forall d, d ∈ insert_targets (players w) (iter_descendants w target) ->
             d < next_entity w) ->
  play_animation_when_ready target w =
    Some (set_graph_handles
            (set_players w (players_after (index atp) (players w)
                              (iter_descendants w target)))
            (handles_after (graph_handle atp) (graph_handles w)
               (insert_targets (players w) (iter_descendants w target)))).
Proof.
  intros Hatp Hal. unfold play_animation_when_ready, play_animation_when_ready_body.
  rewrite Hatp, play_loop_eq. simpl. by rewrite apply_insert_handles.
Qed.

Lemma play_animation_when_ready_no_marker (w : World) (target : Entity) :
  animations_to_play w !! target = None ->
  play_animation_when_ready target w = Some w.
Proof.
  intros H. unfold play_animation_when_ready, play_animation_when_ready_body.
  by rewrite H.
Qed.

(** In a well-formed world every player lives on an allocated entity. *)
Lemma wf_insert_targets (w : World) (ds : list Entity) d :
  wf w -> d ∈ insert_targets (players w) ds -> d < next_entity w.
Proof.
  intros (_ & _ & Hp & _) Hd. apply insert_targets_spec in Hd as [_ [p Hp']].
  exact (Hp d p Hp').
Qed.

Lemma apply_insert_handles_inv (h : GraphHandle) (l : list Entity) :
  forall (w w' : World),
  apply_commands w (map (insert_handle_cmd h) l) = Some w' ->
  forall d, d ∈ l -> d < next_entity w.
Proof.
  induction l as [|d l IH]; intros w w' Hw d' Hd'; simpl in *.
  - set_solver.
  - destruct (decide (d < next_entity w)) as [Hlt|]; [|discriminate].
    apply elem_of_cons in Hd' as [->|Hd']; [done|].
    exact (IH _ _ Hw d' Hd').
Qed.

(** The observer succeeds only when every player it reaches exists. *)
Lemma play_animation_when_ready_inv (w w' : World) (target : Entity)
    (atp : AnimationToPlay) :
  animations_to_play w !! target = Some atp ->
  play_animation_when_ready target w = Some w' ->
  forall d, d ∈ insert_targets (players w) (iter_descendants w target) ->
            d < next_entity w.
Proof.
  intros Hatp Hw. unfold play_animation_when_ready, play_animation_when_ready_body in Hw.
  rewrite Hatp, play_loop_eq in Hw. simpl in Hw.
  exact (apply_insert_handles_inv _ _ _ _ Hw).
Qed.

Lemma players_after_is_Some (idx : AnimationNodeIndex) (m : gmap Entity AnimationPlayer)
    (ds : list Entity) (k : Entity) :
  is_Some (players_after idx m ds !! k) <-> is_Some (m !! k).
Proof.
  rewrite players_after_lookup. destruct (m !! k); split; intros []; eauto; discriminate.
Qed.

Lemma insert_targets_nil (m : gmap Entity AnimationPlayer) (ds : list Entity) :
  (forall d, d ∈ ds -> m !! d = None) -> insert_targets m ds = [].
Proof.
  induction ds as [|d ds IH]; intros Hn; simpl; [done|].
  rewrite Hn by set_solver. apply IH. intros d' Hd'. apply Hn. set_solver.
Qed.

(** ** The descendant iteration reaches every descendant *)

Lemma descendant_split (ch : gmap Entity (list Entity)) (x d : Entity) :
  descendant ch x d -> d ∈ kids ch x \/ exists y, y ∈ kids ch x /\ descendant ch y d.
Proof.
  induction 1 as [c Hc|d' c Hd' IH Hc].
  - by left.
  - right. destruct IH as [Hin|(y & Hy & Hyd)].
    + exists d'. split; [done|]. by apply desc_child.
    + exists y. split; [done|]. by apply (desc_step _ _ d').
Qed.

Lemma kids_links (ch : gmap Entity (list Entity)) (p c : Entity) :
  c ∈ kids ch p -> c ∈ concat (map snd (map_to_list ch)).
Proof.
  unfold kids. destruct (ch !! p) as [l|] eqn:Hp; simpl; [|set_solver].
  intros Hc. apply list_elem_of_In, in_concat. exists l. split.
  - apply in_map_iff. exists (p, l). split; [done|].
    apply list_elem_of_In, elem_of_map_to_list, Hp.
  - by apply list_elem_of_In.
Qed.

Section Bfs.

Variable ch : gmap Entity (list Entity).
Variable r : Entity.
Hypothesis Hok : hierarchy_ok ch r.

(** What holds of the entities popped so far ([popped]) and the queue. *)
Definition bfs_inv (popped queue : list Entity) : Prop :=
  NoDup (popped ++ queue) /\
  (forall x, x ∈ popped ++ queue -> descendant ch r x) /\
  (forall x, x ∈ popped ++ queue ->
     x ∈ kids ch r \/ exists z, z ∈ popped /\ x ∈ kids ch z) /\
  (forall d, descendant ch r d ->
     d ∈ popped \/ d ∈ queue \/ exists y, y ∈ queue /\ descendant ch y d).

Lemma bfs_inv_init : bfs_inv [] (kids ch r).
Proof.
  destruct Hok as (_ & Hnd & _).
  split; [apply Hnd|]. split; [intros x Hx; by apply desc_child|].
  split; [intros x Hx; by left|].
  intros d Hd. apply descendant_split in Hd as [?|?]; auto.
Qed.

Lemma bfs_inv_step (popped queue : list Entity) (x : Entity) :
  bfs_inv popped (x :: queue) ->
  bfs_inv (popped ++ [x]) (queue ++ kids ch x).
Proof.
  destruct Hok as (Huniq & Hnd & Hacyc).
  intros (Hnodup & Hdesc & Horig & Hclos).
  assert (descendant ch r x) as Hx by (apply Hdesc; set_solver).
  assert (x ∉ popped) as Hxp.
  { intros Hin. apply NoDup_app in Hnodup as (_ & Hdis & _).
    exact (Hdis x Hin ltac:(set_solver)). }
  (* a child of [x] was not reached before *)
  assert (forall y, y ∈ kids ch x -> y ∉ popped ++ x :: queue) as Hfresh.
  { intros y Hy Hin. destruct (Horig y Hin) as [Hyr|(z & Hz & Hyz)].
    - pose proof (Huniq _ _ _ Hy Hyr) as ->. exact (Hacyc Hx).
    - pose proof (Huniq _ _ _ Hy Hyz) as ->. exact (Hxp Hz). }
  split; [|split; [|split]].
  - replace ((popped ++ [x]) ++ queue ++ kids ch x)
      with ((popped ++ x :: queue) ++ kids ch x)
      by (rewrite <- !app_assoc; reflexivity).
    apply NoDup_app. split; [done|split; [|apply Hnd]].
    intros y Hy1 Hy2. exact (Hfresh y Hy2 Hy1).
  - intros y Hy. rewrite <- app_assoc in Hy. simpl in Hy.
    apply elem_of_app in Hy as [Hy|Hy]; [apply Hdesc; set_solver|].
    apply elem_of_cons in Hy as [->|Hy]; [done|].
    apply elem_of_app in Hy as [Hy|Hy]; [apply Hdesc; set_solver|].
    by apply (desc_step _ _ x).
  - intros y Hy. rewrite <- app_assoc in Hy. simpl in Hy.
    apply elem_of_app in Hy as [Hy|Hy].
    + destruct (Horig y ltac:(set_solver)) as [?|(z & ? & ?)]; [by left|].
      right. exists z. set_solver.
    + apply elem_of_cons in Hy as [->|Hy].
      * destruct (Horig x ltac:(set_solver)) as [?|(z & ? & ?)]; [by left|].
        right. exists z. set_solver.
      * apply elem_of_app in Hy as [Hy|Hy].
        -- destruct (Horig y ltac:(set_solver)) as [?|(z & ? & ?)]; [by left|].
           right. exists z. set_solver.
        -- right. exists x. set_solver.
  - intros d Hd. destruct (Hclos d Hd) as [?|[Hq|(y & Hy & Hyd)]].
    + left. set_solver.
    + apply elem_of_cons in Hq as [->|Hq]; [left; set_solver|].
      right; left. set_solver.
    + apply elem_of_cons in Hy as [->|Hy].
      * apply descendant_split in Hyd as [?|(y' & ? & ?)].
        -- right; left. set_solver.
        -- right; right. exists y'. split; [set_solver|done].
      * right; right. exists y. split; [set_solver|done].
Qed.

(** Entities popped and queued are distinct child links: they cannot
    outnumber the links. *)
Lemma bfs_inv_bound (popped queue : list Entity) :
  bfs_inv popped queue ->
  length (popped ++ queue) <= length (concat (map snd (map_to_list ch))).
Proof.
  intros (Hnodup & _ & Horig & _).
  apply submseteq_length, NoDup_submseteq; [done|].
  intros y Hy. destruct (Horig y Hy) as [Hyr|(z & _ & Hyz)]; by eapply kids_links.
Qed.

Lemma descendants_bfs_complete (fuel : nat) :
  forall popped queue,
  bfs_inv popped queue ->
  length (concat (map snd (map_to_list ch))) <= fuel + length popped ->
  forall d, descendant ch r d -> d ∈ popped ++ descendants_bfs fuel ch queue.
Proof.
  induction fuel as [|fuel IH]; intros popped queue Hinv Hfuel d Hd.
  - destruct queue as [|x queue].
    + destruct Hinv as (_ & _ & _ & Hclos).
      destruct (Hclos d Hd) as [?|[?|(? & ? & _)]]; set_solver.
    + pose proof (bfs_inv_bound _ _ Hinv) as Hb.
      rewrite length_app in Hb. simpl in Hb. lia.
  - destruct queue as [|x queue].
    + destruct Hinv as (_ & _ & _ & Hclos).
      destruct (Hclos d Hd) as [?|[?|(? & ? & _)]]; set_solver.
    + simpl. pose proof (bfs_inv_step _ _ _ Hinv) as Hinv'.
      assert (length (concat (map snd (map_to_list ch)))
              <= fuel + length (popped ++ [x])) as Hfuel'
        by (rewrite length_app; simpl; lia).
      pose proof (IH _ _ Hinv' Hfuel' d Hd) as Hin.
      rewrite <- app_assoc in Hin. exact Hin.
Qed.

End Bfs.

(** Every entity [iter_descendants] yields is a descendant. *)
Lemma descendants_bfs_sound (ch : gmap Entity (list Entity)) (r : Entity)
    (fuel : nat) :
  forall queue, (forall x, x ∈ queue -> descendant ch r x) ->
  forall d, d ∈ descendants_bfs fuel ch queue -> descendant ch r d.
Proof.
  induction fuel as [|fuel IH]; intros queue Hq d Hd; simpl in Hd; [set_solver|].
  destruct queue as [|x queue]; [set_solver|].
  apply elem_of_cons in Hd as [->|Hd]; [apply Hq; set_solver|].
  apply (IH (queue ++ default [] (ch !! x))); [|done].
  intros y Hy. apply elem_of_app in Hy as [Hy|Hy]; [apply Hq; set_solver|].
  apply (desc_step _ _ x); [apply Hq; set_solver|exact Hy].
Qed.

Lemma iter_descendants_sound (w : World) (r d : Entity) :
  d ∈ iter_descendants w r -> descendant (children w) r d.
Proof.
  apply descendants_bfs_sound. intros x Hx. by apply desc_child.
Qed.

(** Under Bevy's hierarchy invariants, [iter_descendants] yields every
    descendant. *)
Lemma iter_descendants_complete (w : World) (r d : Entity) :
  hierarchy_ok (children w) r -> descendant (children w) r d ->
  d ∈ iter_descendants w r.
Proof.
  intros Hok Hd.
  pose proof (descendants_bfs_complete (children w) r Hok (child_links w) []
                (kids (children w) r) (bfs_inv_init _ _ Hok)
                ltac:(unfold child_links; simpl; lia) d Hd) as Hin.
  exact Hin.
Qed.

(** ** Claims about [play_animation_when_ready] *)

(** The sample hierarchy satisfies Bevy's invariants. *)
Lemma sample_kids_eq (p : Entity) :
  kids (children sample_world) p =
    if decide (p = 0) then [3; 4] else if decide (p = 3) then [5] else [].
Proof.
  unfold kids; simpl.
  destruct (decide (p = 0)) as [->|H0]; [reflexivity|].
  rewrite lookup_insert_ne by congruence.
  destruct (decide (p = 3)) as [->|H3]; [reflexivity|].
  rewrite lookup_insert_ne by congruence. by rewrite lookup_empty.
Qed.

Lemma sample_kids (p c : Entity) :
  c ∈ kids (children sample_world) p ->
  (p = 0 /\ (c = 3 \/ c = 4)) \/ (p = 3 /\ c = 5).
Proof.
  rewrite sample_kids_eq.
  destruct (decide (p = 0)) as [->|H0]; [intros Hc; left; split; [done|set_solver]|].
  destruct (decide (p = 3)) as [->|H3]; [intros Hc; right; split; [done|set_solver]|].
  set_solver.
Qed.

Lemma sample_descendants (d : Entity) :
  descendant (children sample_world) 0 d -> d = 3 \/ d = 4 \/ d = 5.
Proof.
  induction 1 as [c Hc|d c _ IH Hc].
  - apply sample_kids in Hc as [[_ [-> | ->]]|[? _]]; [auto|auto|discriminate].
  - apply sample_kids in Hc as [[-> _]|[-> ->]]; [|auto].
    destruct IH as [?|[?|?]]; discriminate.
Qed.

Lemma sample_hierarchy_ok : hierarchy_ok (children sample_world) 0.
Proof.
  split; [|split].
  - intros p p' c H1 H2.
    apply sample_kids in H1 as [[-> [-> | ->]]|[-> ->]];
      apply sample_kids in H2 as [[-> [? | ?]]|[-> ?]]; congruence.
  - intros p. rewrite sample_kids_eq.
    destruct (decide (p = 0)); [|destruct (decide (p = 3))];
      repeat constructor; set_solver.
  - intros Hd. apply sample_descendants in Hd as [?|[?|?]]; discriminate.
Qed.

(** C1: when the target carries the marker, every descendant that has an
    [AnimationPlayer] ends the invocation playing the marker's node index
    on infinite repeat, with an [AnimationGraphHandle] to the marker's
    graph inserted on it. *)
Theorem play_animation_when_ready_plays_every_player (w : World) (target : Entity)
    (atp : AnimationToPlay) :
  wf w ->
  hierarchy_ok (children w) target ->
  animations_to_play w !! target = Some atp ->
  exists w', play_animation_when_ready target w = Some w' /\
    forall d, descendant (children w) target d -> is_Some (players w !! d) ->
      (exists p a, players w' !! d = Some p /\
                   active_animations p !! index atp = Some a /\
                   aa_repeat a = Forever) /\
      graph_handles w' !! d = Some (graph_handle atp).
Proof.
  intros Hwf Hok Hatp.
  rewrite (play_animation_when_ready_marker w target atp Hatp)
    by (intros d; apply wf_insert_targets, Hwf).
  eexists; split; [reflexivity|]. intros d Hd [p Hp].
  apply (iter_descendants_complete w target d Hok) in Hd. simpl. split.
  - rewrite players_after_lookup, Hp, decide_True by done.
    destruct (play_repeat_started (index atp) p) as (a & Ha & Hr).
    exists (play_repeat (index atp) p), a. done.
  - rewrite handles_after_lookup, decide_True; [done|].
    apply insert_targets_spec. split; [done|]. by exists p.
Qed.

Lemma play_animation_when_ready_plays_every_player_witness :
  (wf sample_world /\ hierarchy_ok (children sample_world) 0 /\
   animations_to_play sample_world !! 0 = Some factory_marker) /\
  exists w', play_animation_when_ready 0 sample_world = Some w' /\
    forall d, descendant (children sample_world) 0 d ->
      is_Some (players sample_world !! d) ->
      (exists p a, players w' !! d = Some p /\
                   active_animations p !! index factory_marker = Some a /\
                   aa_repeat a = Forever) /\
      graph_handles w' !! d = Some (graph_handle factory_marker).
Proof.
  split; [split; [apply (bool_decide_unpack _); vm_compute; reflexivity|]|].
  { split; [exact sample_hierarchy_ok|reflexivity]. }
  apply (play_animation_when_ready_plays_every_player sample_world 0 factory_marker).
  - apply (bool_decide_unpack _); vm_compute; reflexivity.
  - exact sample_hierarchy_ok.
  - reflexivity.
Defined.

(** C2: when the target carries no marker, the observer leaves the world
    unchanged: no player is touched and no component is inserted. *)
Theorem play_animation_when_ready_without_marker_noop (w : World) (target : Entity) :
  animations_to_play w !! target = None ->
  play_animation_when_ready target w = Some w.
Proof.
  intros H. unfold play_animation_when_ready, play_animation_when_ready_body.
  by rewrite H.
Qed.

Lemma play_animation_when_ready_without_marker_noop_witness :
  animations_to_play sample_world !! 1 = None /\
  play_animation_when_ready 1 sample_world = Some sample_world.
Proof.
  split; [reflexivity|].
  apply (play_animation_when_ready_without_marker_noop sample_world 1).
  reflexivity.
Defined.

(** C3: with the marker but no player anywhere below the target, the
    observer succeeds and leaves the world unchanged. *)
Theorem play_animation_when_ready_no_player_noop (w : World) (target : Entity)
    (atp : AnimationToPlay) :
  animations_to_play w !! target = Some atp ->
  (forall d, descendant (children w) target d -> players w !! d = None) ->
  play_animation_when_ready target w = Some w.
Proof.
  intros Hatp Hnone'.
  assert (forall d, d ∈ iter_descendants w target -> players w !! d = None) as Hnone
    by (intros d Hd; by apply Hnone', iter_descendants_sound).
  pose proof (insert_targets_nil (players w) _ Hnone) as Hnil.
  rewrite (play_animation_when_ready_marker w target atp Hatp)
    by (rewrite Hnil; set_solver).
  rewrite Hnil. f_equal.
  assert (players_after (index atp) (players w) (iter_descendants w target)
          = players w) as ->.
  { apply map_eq. intros k. rewrite players_after_lookup.
    destruct (players w !! k) as [p|] eqn:Hk; [|done].
    rewrite decide_False; [done|]. intros Hin. rewrite Hnone in Hk by done.
    discriminate. }
  by destruct w.
Qed.

Lemma play_animation_when_ready_no_player_noop_witness :
  (animations_to_play sample_world_no_player !! 0 = Some factory_marker /\
   iter_descendants sample_world_no_player 0 = [3; 4; 5]) /\
  play_animation_when_ready 0 sample_world_no_player = Some sample_world_no_player.
Proof.
  split; [split; reflexivity|].
  apply (play_animation_when_ready_no_player_noop sample_world_no_player 0
           factory_marker).
  - reflexivity.
  - intros d _. reflexivity.
Defined.

(** C5: a second invocation on the world the first one produced succeeds
    and produces that same world. *)
Theorem play_animation_when_ready_idempotent (w w1 : World) (target : Entity) :
  play_animation_when_ready target w = Some w1 ->
  play_animation_when_ready target w1 = Some w1.
Proof.
  intros H1.
  destruct (animations_to_play w !! target) as [atp|] eqn:Hatp.
  2:{ rewrite play_animation_when_ready_no_marker in H1 by done.
      injection H1 as <-. by apply play_animation_when_ready_no_marker. }
  pose proof (play_animation_when_ready_inv w w1 target atp Hatp H1) as Hal.
  rewrite (play_animation_when_ready_marker w target atp Hatp Hal) in H1.
  injection H1 as <-.
  set (ds := iter_descendants w target).
  set (P := players_after (index atp) (players w) ds).
  set (l := insert_targets (players w) ds).
  set (G := handles_after (graph_handle atp) (graph_handles w) l).
  set (w1 := set_graph_handles (set_players w P) G).
  assert (iter_descendants w1 target = ds) as Hds by reflexivity.
  assert (insert_targets (players w1) ds = l) as Hl.
  { apply insert_targets_ext. intros k. apply players_after_is_Some. }
  rewrite (play_animation_when_ready_marker w1 target atp) by
    (try rewrite Hds, Hl; done).
  rewrite Hds, Hl. f_equal.
  assert (players_after (index atp) (players w1) ds = P) as ->.
  { apply map_eq. intros k. simpl. unfold P. rewrite !players_after_lookup.
    destruct (players w !! k) as [p|]; [|done].
    destruct (decide (k ∈ ds)); [|done]. by rewrite play_repeat_idem. }
  assert (handles_after (graph_handle atp) (graph_handles w1) l = G) as ->.
  { apply map_eq. intros k. simpl. unfold G. rewrite !handles_after_lookup.
    by destruct (decide (k ∈ l)). }
  reflexivity.
Qed.

Lemma play_animation_when_ready_idempotent_witness :
  play_animation_when_ready 0 sample_world
    = Some (default empty_world (play_animation_when_ready 0 sample_world)) /\
  play_animation_when_ready 0
      (default empty_world (play_animation_when_ready 0 sample_world))
    = Some (default empty_world (play_animation_when_ready 0 sample_world)).
Proof.
  split; [vm_compute; reflexivity|].
  apply (play_animation_when_ready_idempotent sample_world).
  vm_compute; reflexivity.
Defined.

(** C7: the observer reads the marker and never removes or changes it. *)
Theorem play_animation_when_ready_keeps_marker (w w' : World) (target : Entity) :
  play_animation_when_ready target w = Some w' ->
  animations_to_play w' = animations_to_play w.
Proof.
  intros H1.
  destruct (animations_to_play w !! target) as [atp|] eqn:Hatp.
  - pose proof (play_animation_when_ready_inv w w' target atp Hatp H1) as Hal.
    rewrite (play_animation_when_ready_marker w target atp Hatp Hal) in H1.
    by injection H1 as <-.
  - rewrite play_animation_when_ready_no_marker in H1 by done.
    by injection H1 as <-.
Qed.

Lemma play_animation_when_ready_keeps_marker_witness :
  play_animation_when_ready 0 sample_world
    = Some (default empty_world (play_animation_when_ready 0 sample_world)) /\
  animations_to_play (default empty_world (play_animation_when_ready 0 sample_world))
    = animations_to_play sample_world.
Proof.
  split; [vm_compute; reflexivity|].
  apply (play_animation_when_ready_keeps_marker sample_world _ 0).
  vm_compute; reflexivity.
Defined.

(** C8: in a well-formed world the observer always completes normally,
    with or without marker, with or without players. *)
Theorem play_animation_when_ready_total (w : World) (target : Entity) :
  wf w -> is_Some (play_animation_when_ready target w).
Proof.
  intros Hwf.
  destruct (animations_to_play w !! target) as [atp|] eqn:Hatp.
  - rewrite (play_animation_when_ready_marker w target atp Hatp)
      by (intros d; apply wf_insert_targets, Hwf).
    eauto.
  - rewrite play_animation_when_ready_no_marker by done. eauto.
Qed.

Lemma play_animation_when_ready_total_witness :
  wf sample_world /\ is_Some (play_animation_when_ready 1 sample_world) /\
  is_Some (play_animation_when_ready 0 sample_world).
Proof.
  split; [apply (bool_decide_unpack _); vm_compute; reflexivity|].
  split; apply play_animation_when_ready_total;
    apply (bool_decide_unpack _); vm_compute; reflexivity.
Defined.

(** ** Lemmas about [setup_mesh_and_animation] *)

Ltac insert_component_field :=
  intros; match goal with c : Component |- _ => destruct c end; simpl;
  repeat match goal with |- context [match ?x with Some _ => _ | None => _ end] =>
    destruct x end; reflexivity.

Lemma ic_next_entity e w c : next_entity (insert_component e w c) = next_entity w.
Proof. insert_component_field. Qed.

Lemma ic_children e w c : children (insert_component e w c) = children w.
Proof. insert_component_field. Qed.

Lemma ic_players e w c : players (insert_component e w c) = players w.
Proof. insert_component_field. Qed.

Lemma ic_observers e w c : observers (insert_component e w c) = observers w.
Proof. insert_component_field. Qed.

Lemma ic_graphs e w c : graphs (insert_component e w c) = graphs w.
Proof. insert_component_field. Qed.

Lemma ic_load_requests e w c : load_requests (insert_component e w c) = load_requests w.
Proof. insert_component_field. Qed.

Lemma ic_animations_to_play e w c :
  animations_to_play (insert_component e w c) =
    match c with
    | CAnimationToPlay a => <[e := a]> (animations_to_play w)
    | _ => animations_to_play w
    end.
Proof. insert_component_field. Qed.

Lemma ic_scene_roots e w c :
  scene_roots (insert_component e w c) =
    match c with
    | CSceneRoot h => <[e := h]> (scene_roots w)
    | _ => scene_roots w
    end.
Proof. insert_component_field. Qed.

Lemma ic_transforms_transform e w t :
  transforms (insert_component e w (CTransform t)) = <[e := t]> (transforms w).
Proof. reflexivity. Qed.

(** Everything [setup_mesh_and_animation] does to a world, field by field:
    it reserves three entities (the factory root, the corn root, the
    observer entity), and its commands always apply. *)
Lemma setup_spec (w : World) :
  exists w', setup_mesh_and_animation w = Some w' /\
    next_entity w' = S (S (S (next_entity w))) /\
    children w' = children w /\
    players w' = players w /\
    animations_to_play w' =
      <[next_entity w := mkAnimationToPlay (next_graph w) 1]> (animations_to_play w) /\
    scene_roots w' =
      <[S (next_entity w) := from_asset (Scene 0) CORN]>
        (<[next_entity w := from_asset (Scene 0) FACTORY]> (scene_roots w)) /\
    transforms w' !! S (next_entity w) = Some corn_transform /\
    observers w' = observers w ++ [(next_entity w, PlayAnimationWhenReady)] /\
    graphs w' = <[next_graph w := factory_graph]> (graphs w) /\
    load_requests w' =
      load_requests w ++ [from_asset (Animation 0) FACTORY;
                          from_asset (Scene 0) FACTORY;
                          from_asset (Scene 0) CORN].
Proof.
  unfold setup_mesh_and_animation, setup_mesh_and_animation_body.
  cbn -[decide insert_component].
  rewrite decide_True by lia.
  set (wA := insert_component _ (insert_component _ _ _) _).
  assert (next_entity wA = S (S (next_entity w))) as HA
    by (unfold wA; rewrite !ic_next_entity; reflexivity).
  rewrite decide_True by (rewrite HA; lia).
  cbn -[decide insert_component].
  rewrite decide_True by (rewrite HA; lia).
  eexists; split; [reflexivity|].
  cbn -[insert_component].
  rewrite !ic_next_entity, !ic_children, !ic_players, !ic_observers, !ic_graphs,
    !ic_load_requests, !ic_animations_to_play, !ic_scene_roots, ic_transforms_transform.
  simpl. unfold wA.
  rewrite !ic_next_entity, !ic_children, !ic_players, !ic_observers, !ic_graphs,
    !ic_load_requests, !ic_animations_to_play, !ic_scene_roots.
  simpl. rewrite lookup_insert_eq, <- !app_assoc. repeat split; reflexivity.
Qed.

Lemma observers_filter_none (l : list (Entity * ObserverSystem)) (t : Entity) :
  Forall (fun o => o.1 ≠ t) l -> filter (fun o => o.1 = t) l = [].
Proof.
  induction 1 as [|o l Ho _ IH]; [done|].
  rewrite filter_cons, decide_False by done. exact IH.
Qed.

(** ** Claims about [setup_mesh_and_animation] *)

(** C6: the marker and the factory scene request go on one entity, and
    the observer is attached to that same entity, whose marker holds the
    graph just stored with the clip at its node index. *)
Theorem setup_marker_and_scene_same_entity (w : World) :
  exists w' e, setup_mesh_and_animation w = Some w' /\
    animations_to_play w' !! e = Some (mkAnimationToPlay (next_graph w) 1) /\
    scene_roots w' !! e = Some (from_asset (Scene 0) FACTORY) /\
    PlayAnimationWhenReady ∈ observers_for w' e /\
    graphs w' !! next_graph w = Some factory_graph /\
    graph_nodes factory_graph !! 1 = Some (ClipNode (from_asset (Animation 0) FACTORY)).
Proof.
  destruct (setup_spec w) as (w' & Hs & _ & _ & _ & Hatp & Hsr & _ & Hob & Hg & _).
  exists w', (next_entity w). split; [done|]. unfold observers_for.
  rewrite Hatp, Hsr, Hob, Hg, !lookup_insert_eq, lookup_insert_ne by lia.
  rewrite lookup_insert_eq. repeat split; try reflexivity.
  rewrite filter_app, map_app, filter_cons, decide_True by done.
  simpl. set_solver.
Qed.

(** C9: the system issues two scene requests, one per scene file (next to
    the clip request of the factory file), spawns one entity per scene and
    attaches the marker to the factory scene's entity only. *)
Theorem setup_two_scene_requests (w : World) :
  exists w', setup_mesh_and_animation w = Some w' /\
    load_requests w' =
      load_requests w ++ [from_asset (Animation 0) FACTORY;
                          from_asset (Scene 0) FACTORY;
                          from_asset (Scene 0) CORN] /\
    List.filter is_scene_request
      (drop (length (load_requests w)) (load_requests w')) =
      [from_asset (Scene 0) FACTORY; from_asset (Scene 0) CORN] /\
    scene_roots w' =
      <[S (next_entity w) := from_asset (Scene 0) CORN]>
        (<[next_entity w := from_asset (Scene 0) FACTORY]> (scene_roots w)) /\
    animations_to_play w' =
      <[next_entity w := mkAnimationToPlay (next_graph w) 1]> (animations_to_play w) /\
    next_entity w <> S (next_entity w).
Proof.
  destruct (setup_spec w) as (w' & Hs & _ & _ & _ & Hatp & Hsr & _ & _ & _ & Hlr).
  exists w'. rewrite Hlr, drop_app_length. repeat split; (done || lia).
Qed.

(** C4 (as the code has it): the observer is attached to the factory
    entity only, so a ready notification for the corn entity reaches no
    observer and changes nothing, in the world the startup system leaves
    and in every later one (the corn scene spawned below its root) whose
    observers and markers are still those of startup; the corn entity has
    no marker, so the observer would be a no-op there as well. *)
Theorem corn_scene_ready_not_observed (w : World) :
  wf w ->
  exists w', setup_mesh_and_animation w = Some w' /\
    scene_roots w' !! S (next_entity w) = Some (from_asset (Scene 0) CORN) /\
    animations_to_play w' !! S (next_entity w) = None /\
    forall w2, observers w2 = observers w' ->
      animations_to_play w2 = animations_to_play w' ->
      observers_for w2 (S (next_entity w)) = [] /\
      trigger_scene_instance_ready (S (next_entity w)) w2 = Some w2 /\
      play_animation_when_ready (S (next_entity w)) w2 = Some w2.
Proof.
  intros (_ & Hatpw & _ & _ & _ & _ & Hobw).
  destruct (setup_spec w) as (w' & Hs & _ & _ & _ & Hatp & Hsr & _ & Hob & _ & _).
  assert (animations_to_play w' !! S (next_entity w) = None) as Hnone.
  { rewrite Hatp, lookup_insert_ne by lia.
    destruct (animations_to_play w !! S (next_entity w)) as [a|] eqn:Ha; [|done].
    specialize (Hatpw _ _ Ha). simpl in Hatpw. lia. }
  exists w'. split; [done|]. split.
  { rewrite Hsr, lookup_insert_eq. reflexivity. }
  split; [done|].
  intros w2 Hob2 Hatp2.
  assert (observers_for w2 (S (next_entity w)) = []) as Hobs.
  { unfold observers_for. rewrite Hob2, Hob, observers_filter_none; [done|].
    apply Forall_app; split.
    - eapply Forall_impl; [exact Hobw|]. simpl. intros [oe os] Ho Heq. simpl in *. subst oe. lia.
    - constructor; [simpl; intros Heq; lia|constructor]. }
  split; [done|]. split.
  - unfold trigger_scene_instance_ready. by rewrite Hobs.
  - apply play_animation_when_ready_no_marker. by rewrite Hatp2.
Qed.

Lemma corn_scene_ready_not_observed_witness :
  wf empty_world /\
  descendant (children corn_spawned_world) 1 6 /\
  players corn_spawned_world !! 6 = Some (mkAnimationPlayer ∅) /\
  observers_for corn_spawned_world 1 = [] /\
  trigger_scene_instance_ready 1 corn_spawned_world = Some corn_spawned_world /\
  play_animation_when_ready 1 corn_spawned_world = Some corn_spawned_world.
Proof.
  split; [apply (bool_decide_unpack _); vm_compute; reflexivity|].
  split; [apply desc_child; apply (bool_decide_unpack _); vm_compute; reflexivity|].
  split; [vm_compute; reflexivity|].
  destruct (corn_scene_ready_not_observed empty_world) as (w' & Hs & _ & _ & H).
  - apply (bool_decide_unpack _); vm_compute; reflexivity.
  - vm_compute in Hs. injection Hs as <-.
    apply H; vm_compute; reflexivity.
Defined.

(** C4 as stated fails: after the startup system, entity 1 is the corn
    scene's root, and no observer watches it, so [play_animation_when_ready]
    is not invoked when its scene becomes ready. *)
Lemma corn_scene_ready_observer_not_invoked :
  match setup_mesh_and_animation empty_world with
  | Some w' =>
      scene_roots w' !! 1 = Some (from_asset (Scene 0) CORN) /\
      PlayAnimationWhenReady ∉ observers_for w' 1
  | None => False
  end.
Proof.
  vm_compute. split; [reflexivity|]. intros H. inversion H.
Qed.

(** ** Claims about [draw_mesh_intersections] *)

Lemma in_filter_map {A B} (f : A -> option B) (l : list A) (y : B) :
  In y (filter_map f l) <-> exists x, In x l /\ f x = Some y.
Proof.
  induction l as [|x l IH]; simpl.
  - split; [done|]. intros (? & [] & _).
  - destruct (f x) as [y'|] eqn:Hf; simpl; rewrite IH.
    + split.
      * intros [<-|(x' & ? & ?)]; eauto.
      * intros (x' & [<-|?] & ?); [left; congruence|eauto].
    + split.
      * intros (x' & ? & ?); eauto.
      * intros (x' & [<-|?] & ?); [congruence|eauto].
Qed.

Lemma filter_map_app {A B} (f : A -> option B) (l1 l2 : list A) :
  filter_map f (l1 ++ l2) = filter_map f l1 ++ filter_map f l2.
Proof.
  induction l1 as [|x l1 IH]; simpl; [done|].
  destruct (f x); by rewrite IH.
Qed.

(** C10: the gizmos drawn are exactly a sphere at the hit point and an
    arrow along the normalized normal for each pointer whose nearest hit
    has both a position and a normal; a pointer without a nearest hit, or
    whose nearest hit lacks either, adds nothing. *)
Theorem draw_mesh_intersections_only_full_hits {Vec3 : Type}
    (vadd : Vec3 -> Vec3 -> Vec3) (vscale : Vec3 -> Q -> Vec3)
    (normalize : Vec3 -> Vec3) (ps : list (PointerInteraction Vec3)) :
  (forall g,
     In g (draw_mesh_intersections vadd vscale normalize ps) <->
     exists i e hit p n,
       In i ps /\ get_nearest_hit i = Some (e, hit) /\
       hit_position hit = Some p /\ hit_normal hit = Some n /\
       (g = GSphere p (5 # 100) RED_500 \/
        g = GArrow p (vadd p (vscale (normalize n) (1 # 2))) PINK_100)) /\
  (forall i ps1 ps2,
     (forall e hit, get_nearest_hit i = Some (e, hit) ->
                    hit_position hit = None \/ hit_normal hit = None) ->
     draw_mesh_intersections vadd vscale normalize (ps1 ++ i :: ps2) =
     draw_mesh_intersections vadd vscale normalize (ps1 ++ ps2)).
Proof.
  split.
  - intros g. unfold draw_mesh_intersections. rewrite in_flat_map. split.
    + intros ([p n] & Hin & Hg). apply in_filter_map in Hin as ([e hit] & Hin & Hz).
      apply in_filter_map in Hin as (i & Hi & Hh).
      unfold option_zip in Hz.
      destruct (hit_position hit) as [p'|] eqn:Hp, (hit_normal hit) as [n'|] eqn:Hn;
        try discriminate.
      injection Hz as <- <-.
      exists i, e, hit, p', n'. repeat split; try done.
      simpl in Hg. destruct Hg as [<-|[<-|[]]]; auto.
    + intros (i & e & hit & p & n & Hi & Hh & Hp & Hn & Hg).
      exists (p, n). split.
      * apply in_filter_map. exists (e, hit). split.
        -- apply in_filter_map. eauto.
        -- unfold option_zip. by rewrite Hp, Hn.
      * simpl. destruct Hg as [->| ->]; auto.
  - intros i ps1 ps2 Hi. unfold draw_mesh_intersections.
    rewrite !filter_map_app. simpl.
    destruct (get_nearest_hit i) as [[e hit]|] eqn:Hh; [|done].
    simpl. unfold option_zip.
    destruct (Hi e hit eq_refl) as [-> | ->]; [done|].
    by destruct (hit_position hit).
Qed.

Lemma draw_mesh_intersections_only_full_hits_witness :
  draw_mesh_intersections qadd3 qscale3 id sample_pointers =
    [GSphere (1%Q, 0%Q, 0%Q) (5 # 100) RED_500;
     GArrow (1%Q, 0%Q, 0%Q) (qadd3 (1%Q, 0%Q, 0%Q) (qscale3 (0%Q, 1%Q, 0%Q) (1 # 2)))
       PINK_100] /\
  draw_mesh_intersections qadd3 qscale3 id sample_pointers =
    draw_mesh_intersections qadd3 qscale3 id ([pointer_no_hit] ++ [pointer_full]).
Proof.
  split; [reflexivity|].
  apply (proj2 (draw_mesh_intersections_only_full_hits qadd3 qscale3 id
                  sample_pointers)
           pointer_no_normal [pointer_no_hit] [pointer_full]).
  intros e hit H. injection H as _ <-. right. reflexivity.
Defined.

(** ** Further properties of [play_animation_when_ready] *)

(** The two outcomes of a successful invocation. *)
Lemma play_animation_when_ready_cases (w w' : World) (target : Entity) :
  play_animation_when_ready target w = Some w' ->
  (animations_to_play w !! target = None /\ w' = w) \/
  (exists atp, animations_to_play w !! target = Some atp /\
     (forall d, d ∈ insert_targets (players w) (iter_descendants w target) ->
                d < next_entity w) /\
     w' = set_graph_handles
            (set_players w (players_after (index atp) (players w)
                              (iter_descendants w target)))
            (handles_after (graph_handle atp) (graph_handles w)
               (insert_targets (players w) (iter_descendants w target)))).
Proof.
  intros H1. destruct (animations_to_play w !! target) as [atp|] eqn:Hatp.
  - right. exists atp. pose proof (play_animation_when_ready_inv w w' target atp Hatp H1) as Hal.
    rewrite (play_animation_when_ready_marker w target atp Hatp Hal) in H1.
    injection H1 as <-. done.
  - left. rewrite play_animation_when_ready_no_marker in H1 by done.
    by injection H1 as <-.
Qed.

(** The observer keeps the world well formed. *)
Theorem play_animation_when_ready_preserves_wf (w w' : World) (target : Entity) :
  wf w -> play_animation_when_ready target w = Some w' -> wf w'.
Proof.
  intros Hwf H1.
  destruct (play_animation_when_ready_cases w w' target H1)
    as [[_ ->]|(atp & Hatp & Hal & ->)]; [done|].
  destruct Hwf as (Hc & Ha & Hp & Hg & Hs & Ht & Ho).
  split; [done|]. split; [done|]. split; [|split; [|done]].
  - intros k p Hk. simpl in Hk |- *.
    destruct (proj1 (players_after_is_Some (index atp) (players w)
                       (iter_descendants w target) k) (ex_intro _ p Hk)) as [p0 Hp0].
    exact (Hp k p0 Hp0).
  - intros k h Hk. simpl in Hk |- *. rewrite handles_after_lookup in Hk.
    case_decide as Hin; [exact (Hal k Hin)|exact (Hg k h Hk)].
Qed.

Lemma play_animation_when_ready_preserves_wf_witness :
  wf sample_world /\
  play_animation_when_ready 0 sample_world
    = Some (default empty_world (play_animation_when_ready 0 sample_world)) /\
  wf (default empty_world (play_animation_when_ready 0 sample_world)).
Proof.
  split; [apply (bool_decide_unpack _); vm_compute; reflexivity|].
  split; [vm_compute; reflexivity|].
  apply (play_animation_when_ready_preserves_wf sample_world _ 0).
  - apply (bool_decide_unpack _); vm_compute; reflexivity.
  - vm_compute; reflexivity.
Defined.

(** The observer touches no entity outside the target's subtree, and
    inserts no graph handle on an entity without a player. *)
Theorem play_animation_when_ready_frame (w w' : World) (target : Entity) :
  play_animation_when_ready target w = Some w' ->
  forall k, (~ descendant (children w) target k \/ players w !! k = None) ->
    players w' !! k = players w !! k /\ graph_handles w' !! k = graph_handles w !! k.
Proof.
  intros H1 k Hk.
  destruct (play_animation_when_ready_cases w w' target H1)
    as [[_ ->]|(atp & Hatp & Hal & ->)]; [done|].
  simpl. rewrite players_after_lookup, handles_after_lookup.
  assert (k ∉ insert_targets (players w) (iter_descendants w target)) as Hnot.
  { rewrite insert_targets_spec. intros [Hin [p Hp]].
    destruct Hk as [Hk|Hk]; [exact (Hk (iter_descendants_sound w target k Hin))|congruence]. }
  rewrite decide_False by done. split; [|done].
  destruct (players w !! k) as [p|] eqn:Hp; [|done].
  rewrite decide_False; [done|]. intros Hin. apply Hnot, insert_targets_spec.
  split; [done|]. by exists p.
Qed.

Lemma play_animation_when_ready_frame_witness :
  play_animation_when_ready 0 sample_world
    = Some (default empty_world (play_animation_when_ready 0 sample_world)) /\
  players (default empty_world (play_animation_when_ready 0 sample_world)) !! 4
    = players sample_world !! 4 /\
  graph_handles (default empty_world (play_animation_when_ready 0 sample_world)) !! 4
    = graph_handles sample_world !! 4.
Proof.
  split; [vm_compute; reflexivity|].
  apply (play_animation_when_ready_frame sample_world _ 0); [vm_compute; reflexivity|].
  right. reflexivity.
Defined.

(** The observer changes nothing but players and graph handles. *)
Theorem play_animation_when_ready_other_stores (w w' : World) (target : Entity) :
  play_animation_when_ready target w = Some w' ->
  next_entity w' = next_entity w /\ children w' = children w /\
  scene_roots w' = scene_roots w /\ transforms w' = transforms w /\
  observers w' = observers w /\ graphs w' = graphs w /\
  next_graph w' = next_graph w /\ load_requests w' = load_requests w.
Proof.
  intros H1.
  destruct (play_animation_when_ready_cases w w' target H1)
    as [[_ ->]|(atp & _ & _ & ->)]; [done|].
  repeat split.
Qed.

Lemma play_animation_when_ready_other_stores_witness :
  play_animation_when_ready 0 sample_world
    = Some (default empty_world (play_animation_when_ready 0 sample_world)) /\
  children (default empty_world (play_animation_when_ready 0 sample_world))
    = children sample_world.
Proof.
  split; [vm_compute; reflexivity|].
  apply (play_animation_when_ready_other_stores sample_world _ 0).
  vm_compute; reflexivity.
Defined.

(** [play] neither stops the player's other animations nor restarts the
    one at the marker's index: an entry already there keeps its weight,
    speed, elapsed time, seek time, completion count and pause flag; a new
    entry starts from [ActiveAnimation::default]. *)
Theorem play_animation_when_ready_keeps_progress (w w' : World) (target d : Entity)
    (atp : AnimationToPlay) (p : AnimationPlayer) :
  play_animation_when_ready target w = Some w' ->
  animations_to_play w !! target = Some atp ->
  players w !! d = Some p ->
  exists p', players w' !! d = Some p' /\
    (forall i, i <> index atp -> active_animations p' !! i = active_animations p !! i) /\
    (forall a, active_animations p !! index atp = Some a ->
       exists a', active_animations p' !! index atp = Some a' /\
         aa_weight a' = aa_weight a /\ aa_speed a' = aa_speed a /\
         aa_elapsed a' = aa_elapsed a /\ aa_seek_time a' = aa_seek_time a /\
         aa_completions a' = aa_completions a /\ aa_paused a' = aa_paused a) /\
    (active_animations p !! index atp = None ->
       active_animations p' !! index atp = None \/
       active_animations p' !! index atp = Some (repeat active_animation_default)).
Proof.
  intros H1 Hatp Hp.
  destruct (play_animation_when_ready_cases w w' target H1)
    as [[Hn _]|(atp' & Hatp' & _ & ->)]; [congruence|].
  rewrite Hatp in Hatp'. injection Hatp' as <-.
  simpl. rewrite players_after_lookup, Hp.
  eexists; split; [reflexivity|].
  case_decide; [|split; [done|split; [intros a Ha; exists a; by rewrite Ha|auto]]].
  unfold play_repeat; simpl. split; [|split].
  - intros i Hi. by rewrite lookup_insert_ne by congruence.
  - intros a Ha. rewrite lookup_insert_eq, Ha. simpl.
    eexists; split; [reflexivity|]. by destruct a.
  - intros Hn. right. by rewrite lookup_insert_eq, Hn.
Qed.

Lemma play_animation_when_ready_keeps_progress_witness :
  exists p',
    players (default empty_world (play_animation_when_ready 0 sample_world)) !! 5 = Some p' /\
    (forall i, i <> index factory_marker ->
       active_animations p' !! i =
       active_animations (mkAnimationPlayer
         {[1 := mkActiveAnimation 1%Q (Count 2) 1%Q 0%Q 0%Q 0 false]}) !! i) /\
    (forall a, active_animations (mkAnimationPlayer
         {[1 := mkActiveAnimation 1%Q (Count 2) 1%Q 0%Q 0%Q 0 false]}) !! index factory_marker = Some a ->
       exists a', active_animations p' !! index factory_marker = Some a' /\
         aa_weight a' = aa_weight a /\ aa_speed a' = aa_speed a /\
         aa_elapsed a' = aa_elapsed a /\ aa_seek_time a' = aa_seek_time a /\
         aa_completions a' = aa_completions a /\ aa_paused a' = aa_paused a) /\
    (active_animations (mkAnimationPlayer
         {[1 := mkActiveAnimation 1%Q (Count 2) 1%Q 0%Q 0%Q 0 false]}) !! index factory_marker = None ->
       active_animations p' !! index factory_marker = None \/
       active_animations p' !! index factory_marker = Some (repeat active_animation_default)).
Proof.
  apply (play_animation_when_ready_keeps_progress sample_world _ 0 5 factory_marker).
  - vm_compute; reflexivity.
  - reflexivity.
  - reflexivity.
Defined.

(** ** Further properties of [setup_mesh_and_animation] *)

Lemma ic_graph_handles e w c :
  graph_handles (insert_component e w c) =
    match c with
    | CAnimationGraphHandle h => <[e := h]> (graph_handles w)
    | _ => graph_handles w
    end.
Proof. insert_component_field. Qed.

Lemma ic_transforms e w c :
  transforms (insert_component e w c) =
    match c with
    | CSceneRoot _ => require_transform e (transforms w)
    | CTransform t => <[e := t]> (transforms w)
    | _ => transforms w
    end.
Proof.
  destruct c; simpl; try reflexivity.
  unfold require_transform. simpl. by destruct (transforms w !! e).
Qed.

(** The stores [setup_spec] leaves out. *)
Lemma setup_spec_transforms (w : World) :
  exists w', setup_mesh_and_animation w = Some w' /\
    graph_handles w' = graph_handles w /\
    transforms w' =
      <[S (next_entity w) := corn_transform]>
        (require_transform (S (next_entity w))
           (require_transform (next_entity w) (transforms w))).
Proof.
  unfold setup_mesh_and_animation, setup_mesh_and_animation_body.
  cbn -[decide insert_component].
  rewrite decide_True by lia.
  set (wA := insert_component _ (insert_component _ _ _) _).
  assert (next_entity wA = S (S (next_entity w))) as HA
    by (unfold wA; rewrite !ic_next_entity; reflexivity).
  rewrite decide_True by (rewrite HA; lia).
  cbn -[decide insert_component].
  rewrite decide_True by (rewrite HA; lia).
  eexists; split; [reflexivity|].
  cbn -[insert_component]. rewrite !ic_graph_handles, !ic_transforms.
  simpl. unfold wA. rewrite !ic_graph_handles, !ic_transforms. done.
Qed.

Lemma require_transform_fresh (e : Entity) (m : gmap Entity Transform) :
  m !! e = None -> require_transform e m = <[e := transform_default]> m.
Proof. unfold require_transform. by intros ->. Qed.

Lemma require_transform_bound (e n : nat) (m : gmap Entity Transform) :
  map_Forall (fun k _ => k < n) m -> e < n ->
  map_Forall (fun k _ => k < n) (require_transform e m).
Proof.
  intros Hm He. unfold require_transform.
  case_match; [exact Hm|]. apply map_Forall_insert_2; [exact He|exact Hm].
Qed.

Lemma setup_wf_core (w w' : World) :
  wf w -> setup_mesh_and_animation w = Some w' -> wf w'.
Proof.
  intros (Hc & Ha & Hp & Hg & Hs & Ht & Ho) Hw.
  destruct (setup_spec w) as (w1 & Hs1 & Hn & Hch & Hpl & Hatp & Hsr & _ & Hob & _ & _).
  destruct (setup_spec_transforms w) as (w2 & Hs2 & Hgh & Htr).
  rewrite Hw in Hs1, Hs2. injection Hs1 as <-. injection Hs2 as <-.
  unfold wf. rewrite Hn.
  assert (forall A (m : gmap Entity A),
            map_Forall (fun e _ => e < next_entity w) m ->
            map_Forall (fun e _ => e < S (S (S (next_entity w)))) m) as Hweak.
  { intros A m Hm k x Hk. specialize (Hm k x Hk). simpl in Hm. lia. }
  split; [|split; [|split; [|split; [|split; [|split]]]]].
  - rewrite Hch. intros k l Hk. destruct (Hc k l Hk) as [Hk' Hl]. split; [lia|].
    eapply Forall_impl; [exact Hl|]. simpl. intros. lia.
  - rewrite Hatp. apply map_Forall_insert_2; [lia|]. by apply Hweak.
  - rewrite Hpl. by apply Hweak.
  - rewrite Hgh. by apply Hweak.
  - rewrite Hsr. apply map_Forall_insert_2; [lia|].
    apply map_Forall_insert_2; [lia|]. by apply Hweak.
  - rewrite Htr. apply map_Forall_insert_2; [lia|].
    apply require_transform_bound; [|lia].
    apply require_transform_bound; [|lia]. by apply Hweak.
  - rewrite Hob. apply Forall_app. split; [|constructor; [simpl; lia|constructor]].
    eapply Forall_impl; [exact Ho|]. simpl. intros. lia.
Qed.

Lemma require_transform_ne (e k : Entity) (m : gmap Entity Transform) :
  k <> e -> require_transform e m !! k = m !! k.
Proof.
  intros Hk. unfold require_transform.
  case_match; [done|]. rewrite lookup_insert_ne; [done|congruence].
Qed.

(** [setup_mesh_and_animation] keeps a well-formed world well formed: its
    commands always apply, every component it adds sits on one of the
    three entities it reserves, and so does the observer it registers. *)
Theorem setup_mesh_and_animation_preserves_wf (w : World) :
  wf w ->
  exists w', setup_mesh_and_animation w = Some w' /\ wf w' /\
    next_entity w' = S (S (S (next_entity w))) /\
    (forall e, e < next_entity w \/ next_entity w' <= e ->
       children w' !! e = children w !! e /\
       animations_to_play w' !! e = animations_to_play w !! e /\
       players w' !! e = players w !! e /\
       graph_handles w' !! e = graph_handles w !! e /\
       scene_roots w' !! e = scene_roots w !! e /\
       transforms w' !! e = transforms w !! e) /\
    exists added, observers w' = observers w ++ added /\
      Forall (fun o => next_entity w <= o.1 < next_entity w') added.
Proof.
  intros Hwf.
  destruct (setup_spec w) as (w1 & Hs1 & Hn & Hch & Hpl & Hatp & Hsr & _ & Hob & _ & _).
  destruct (setup_spec_transforms w) as (w2 & Hs2 & Hgh & Htr).
  rewrite Hs1 in Hs2. injection Hs2 as <-.
  exists w1. split; [done|]. split; [exact (setup_wf_core w w1 Hwf Hs1)|].
  split; [exact Hn|]. split.
  - rewrite Hn. intros e He.
    rewrite Hch, Hpl, Hatp, Hsr, Hgh, Htr.
    rewrite !lookup_insert_ne by lia.
    rewrite !require_transform_ne by lia.
    repeat split.
  - exists [(next_entity w, PlayAnimationWhenReady)]. split; [exact Hob|].
    rewrite Hn. constructor; [simpl; lia|constructor].
Qed.

Lemma setup_mesh_and_animation_preserves_wf_witness :
  wf empty_world /\
  exists w', setup_mesh_and_animation empty_world = Some w' /\ wf w' /\
    next_entity w' = 3 /\
    (forall e, e < 0 \/ next_entity w' <= e ->
       children w' !! e = children empty_world !! e /\
       animations_to_play w' !! e = animations_to_play empty_world !! e /\
       players w' !! e = players empty_world !! e /\
       graph_handles w' !! e = graph_handles empty_world !! e /\
       scene_roots w' !! e = scene_roots empty_world !! e /\
       transforms w' !! e = transforms empty_world !! e) /\
    exists added, observers w' = observers empty_world ++ added /\
      Forall (fun o => 0 <= o.1 < next_entity w') added.
Proof.
  split; [apply (bool_decide_unpack _); vm_compute; reflexivity|].
  apply (setup_mesh_and_animation_preserves_wf empty_world).
  apply (bool_decide_unpack _); vm_compute; reflexivity.
Defined.

Lemma wf_lookup_fresh {A} (m : gmap Entity A) (n e : nat) :
  map_Forall (fun k _ => k < n) m -> n <= e -> m !! e = None.
Proof.
  intros Hm He. destruct (m !! e) as [x|] eqn:Hx; [|done].
  specialize (Hm e x Hx). simpl in Hm. lia.
Qed.

(** [setup_mesh_and_animation] changes no component of an entity that
    already exists; the factory root gets the default [Transform] that
    [SceneRoot] requires, the corn root the one the code gives it. *)
Theorem setup_mesh_and_animation_frame (w w' : World) :
  wf w -> setup_mesh_and_animation w = Some w' ->
  (forall e, e < next_entity w ->
     children w' !! e = children w !! e /\
     animations_to_play w' !! e = animations_to_play w !! e /\
     players w' !! e = players w !! e /\
     graph_handles w' !! e = graph_handles w !! e /\
     scene_roots w' !! e = scene_roots w !! e /\
     transforms w' !! e = transforms w !! e) /\
  transforms w' !! next_entity w = Some transform_default /\
  transforms w' !! S (next_entity w) = Some corn_transform.
Proof.
  intros (_ & _ & _ & _ & _ & Ht & _) Hw.
  destruct (setup_spec w) as (w1 & Hs1 & _ & Hch & Hpl & Hatp & Hsr & _ & _ & _ & _).
  destruct (setup_spec_transforms w) as (w2 & Hs2 & Hgh & Htr).
  rewrite Hw in Hs1, Hs2. injection Hs1 as <-. injection Hs2 as <-.
  rewrite (require_transform_fresh (next_entity w)) in Htr
    by (apply (wf_lookup_fresh _ (next_entity w)); [exact Ht|lia]).
  rewrite (require_transform_fresh (S (next_entity w))) in Htr
    by (rewrite lookup_insert_ne by lia;
        apply (wf_lookup_fresh _ (next_entity w)); [exact Ht|lia]).
  rewrite Hch, Hpl, Hatp, Hsr, Hgh, Htr.
  split; [|split].
  - intros e He. rewrite !lookup_insert_ne by lia. done.
  - rewrite lookup_insert_ne, lookup_insert_ne, lookup_insert_eq by lia. done.
  - by rewrite lookup_insert_eq.
Qed.

Lemma setup_mesh_and_animation_frame_witness :
  wf sample_world /\
  setup_mesh_and_animation sample_world
    = Some (default empty_world (setup_mesh_and_animation sample_world)) /\
  transforms (default empty_world (setup_mesh_and_animation sample_world)) !! 1
    = transforms sample_world !! 1.
Proof.
  split; [apply (bool_decide_unpack _); vm_compute; reflexivity|].
  split; [vm_compute; reflexivity|].
  apply (setup_mesh_and_animation_frame sample_world).
  - apply (bool_decide_unpack _); vm_compute; reflexivity.
  - vm_compute; reflexivity.
  - simpl; lia.
Defined.

(** ** Startup followed by the factory scene becoming ready *)

Lemma plays_every_player_core (w : World) (target : Entity) (atp : AnimationToPlay) :
  wf w -> hierarchy_ok (children w) target ->
  animations_to_play w !! target = Some atp ->
  exists w', play_animation_when_ready target w = Some w' /\
    graphs w' = graphs w /\
    forall d, descendant (children w) target d -> is_Some (players w !! d) ->
      (exists p a, players w' !! d = Some p /\
                   active_animations p !! index atp = Some a /\
                   aa_repeat a = Forever) /\
      graph_handles w' !! d = Some (graph_handle atp).
Proof.
  intros Hwf Hok Hatp.
  rewrite (play_animation_when_ready_marker w target atp Hatp)
    by (intros d; apply wf_insert_targets, Hwf).
  eexists; split; [reflexivity|]. split; [reflexivity|].
  intros d Hd [p Hp].
  apply (iter_descendants_complete w target d Hok) in Hd. simpl. split.
  - rewrite players_after_lookup, Hp, decide_True by done.
    destruct (play_repeat_started (index atp) p) as (a & Ha & Hr).
    exists (play_repeat (index atp) p), a. done.
  - rewrite handles_after_lookup, decide_True; [done|].
    apply insert_targets_spec. split; [done|]. by exists p.
Qed.

(** After [setup_mesh_and_animation], once the factory scene has been
    spawned below the factory root (any well-formed hierarchy, with the
    observers, markers and graphs the startup left), the ready
    notification for that root runs the observer exactly once: every
    player in the scene plays node 1 of the stored graph, which is the
    factory's first clip, on infinite repeat, linked to that graph. *)
Theorem setup_then_scene_ready_plays (w w1 w2 : World) :
  wf w -> setup_mesh_and_animation w = Some w1 ->
  wf w2 -> hierarchy_ok (children w2) (next_entity w) ->
  observers w2 = observers w1 -> animations_to_play w2 = animations_to_play w1 ->
  graphs w2 = graphs w1 ->
  observers_for w2 (next_entity w) = [PlayAnimationWhenReady] /\
  exists w3, trigger_scene_instance_ready (next_entity w) w2 = Some w3 /\
    graphs w3 !! next_graph w = Some factory_graph /\
    graph_nodes factory_graph !! 1 = Some (ClipNode (from_asset (Animation 0) FACTORY)) /\
    forall d, descendant (children w2) (next_entity w) d -> is_Some (players w2 !! d) ->
      (exists p a, players w3 !! d = Some p /\
                   active_animations p !! 1 = Some a /\ aa_repeat a = Forever) /\
      graph_handles w3 !! d = Some (next_graph w).
Proof.
  intros Hwf Hs Hwf2 Hok Hob Hatp Hg.
  destruct Hwf as (_ & _ & _ & _ & _ & _ & Ho).
  destruct (setup_spec w) as (w1' & Hs1 & _ & _ & _ & Hatp1 & _ & _ & Hob1 & Hg1 & _).
  rewrite Hs in Hs1. injection Hs1 as <-.
  assert (observers_for w2 (next_entity w) = [PlayAnimationWhenReady]) as Hobs.
  { unfold observers_for. rewrite Hob, Hob1, filter_app, observers_filter_none.
    - rewrite filter_cons, decide_True by done. reflexivity.
    - eapply Forall_impl; [exact Ho|]. intros [oe os] Hlt Heq. simpl in *. subst oe. lia. }
  split; [exact Hobs|].
  assert (animations_to_play w2 !! next_entity w = Some (mkAnimationToPlay (next_graph w) 1))
    as Hm by (rewrite Hatp, Hatp1; apply lookup_insert_eq).
  destruct (plays_every_player_core w2 (next_entity w) _ Hwf2 Hok Hm)
    as (w3 & Hp & Hg3 & Hall).
  exists w3. unfold trigger_scene_instance_ready. rewrite Hobs. simpl. rewrite Hp.
  split; [reflexivity|]. split; [rewrite Hg3, Hg, Hg1; apply lookup_insert_eq|].
  split; [reflexivity|]. exact Hall.
Qed.

Lemma setup_then_scene_ready_plays_witness :
  observers_for sample_world 0 = [PlayAnimationWhenReady] /\
  exists w3, trigger_scene_instance_ready 0 sample_world = Some w3 /\
    graphs w3 !! 0 = Some factory_graph /\
    graph_nodes factory_graph !! 1 = Some (ClipNode (from_asset (Animation 0) FACTORY)) /\
    forall d, descendant (children sample_world) 0 d -> is_Some (players sample_world !! d) ->
      (exists p a, players w3 !! d = Some p /\
                   active_animations p !! 1 = Some a /\ aa_repeat a = Forever) /\
      graph_handles w3 !! d = Some 0.
Proof.
  apply (setup_then_scene_ready_plays empty_world
           (default empty_world (setup_mesh_and_animation empty_world)) sample_world).
  - apply (bool_decide_unpack _); vm_compute; reflexivity.
  - vm_compute; reflexivity.
  - apply (bool_decide_unpack _); vm_compute; reflexivity.
  - exact sample_hierarchy_ok.
  - vm_compute; reflexivity.
  - vm_compute; reflexivity.
  - vm_compute; reflexivity.
Defined.

(** ** Further properties of [draw_mesh_intersections] *)

(** Only the nearest hit of a pointer is ever drawn: the hits behind it
    make no difference. *)
Theorem draw_mesh_intersections_nearest_only {Vec3 : Type}
    (vadd : Vec3 -> Vec3 -> Vec3) (vscale : Vec3 -> Q -> Vec3)
    (normalize : Vec3 -> Vec3) (ps : list (PointerInteraction Vec3)) :
  draw_mesh_intersections vadd vscale normalize (map keep_nearest ps) =
  draw_mesh_intersections vadd vscale normalize ps.
Proof.
  induction ps as [|i ps IH]; [reflexivity|].
  unfold draw_mesh_intersections in *. simpl.
  assert (get_nearest_hit (keep_nearest i) = get_nearest_hit i) as ->
    by (unfold get_nearest_hit, keep_nearest; simpl; by destruct (sorted_entities _ i)).
  destruct (get_nearest_hit i) as [[e hit]|]; simpl; [|exact IH].
  destruct (option_zip (hit_position hit) (hit_normal hit)); simpl; [|exact IH].
  by rewrite IH.
Qed.

(** Pointers are drawn one after the other, two gizmos for each pointer
    with a full nearest hit and none for the others. *)
Theorem draw_mesh_intersections_per_pointer {Vec3 : Type}
    (vadd : Vec3 -> Vec3 -> Vec3) (vscale : Vec3 -> Q -> Vec3)
    (normalize : Vec3 -> Vec3) (ps1 ps2 : list (PointerInteraction Vec3)) :
  draw_mesh_intersections vadd vscale normalize (ps1 ++ ps2) =
    draw_mesh_intersections vadd vscale normalize ps1 ++
    draw_mesh_intersections vadd vscale normalize ps2 /\
  length (draw_mesh_intersections vadd vscale normalize ps1) =
    2 * length (List.filter has_full_hit ps1).
Proof.
  unfold draw_mesh_intersections. split.
  - by rewrite !filter_map_app, flat_map_app.
  - induction ps1 as [|i ps IH]; [reflexivity|].
    change (i :: ps) with ([i] ++ ps).
    rewrite !filter_map_app, flat_map_app, length_app, IH, List.filter_app.
    assert (length (flat_map (draw_hit Vec3 vadd vscale normalize)
              (filter_map (fun '(_, hit) => option_zip (hit_position hit) (hit_normal hit))
                 (filter_map get_nearest_hit [i])))
            = if has_full_hit i then 2 else 0) as ->.
    { unfold has_full_hit. simpl.
      destruct (get_nearest_hit i) as [[e hit]|]; simpl; [|reflexivity].
      unfold option_zip. by destruct (hit_position hit), (hit_normal hit). }
    simpl. destruct (has_full_hit i); simpl; lia.
Qed.
